(** * NativeJIT [Packed]: bit fields packed into one 64-bit word

    A shallow embedding of [inc/NativeJIT/Packed.h] and the properties of its
    three class definitions:

    - the primary template [Packed<W, REST>] (a field of width [W] on top of
      the packed type [REST]),
    - the partial specialisation [Packed<W, void>] (exactly one field),
    - the full specialisation [Packed<0, void>] (no field, only a static
      [Push]).

    Integers are modelled as [Z] with the wrap-around of their C++ type
    written out.  The header is written for the Microsoft x64 compiler
    ([unsigned __int64], the note on RAX): [int] and [unsigned] are 32 bits
    wide, [unsigned __int64] is 64 bits wide, and [int] arithmetic is two's
    complement.  A shift whose count is not below the width of its promoted
    left operand has no behaviour in C++, and hardware and constant folders
    disagree about it (x86 masks the count, a folder may shift the bit out):
    such a shift is the outcome [Undefined]. *)

From Stdlib Require Import ZArith List Lia Bool.
Import ListNotations.

Local Open Scope Z_scope.

(** ** Outcomes *)

(** What evaluating a piece of the header gives: a value, no defined
    behaviour, or a program that does not compile. *)
Inductive outcome (A : Type) : Type :=
| Returns (a : A)
| Undefined
| IllFormed.

Arguments Returns {A} a.
Arguments Undefined {A}.
Arguments IllFormed {A}.

Definition bind {A B : Type} (o : outcome A) (k : A -> outcome B) : outcome B :=
  match o with
  | Returns a => k a
  | Undefined => Undefined
  | IllFormed => IllFormed
  end.

Notation "x <- e ;; k" := (bind e (fun x => k))
  (at level 61, e at next level, right associativity).

(** [static_assert(b, ...)], and any other requirement the compiler checks. *)
Definition static_assert (b : bool) : outcome unit :=
  if b then Returns tt else IllFormed.

(** The compiler accepts the program (whatever it does when run). *)
Definition compiles {A : Type} (o : outcome A) : bool :=
  match o with
  | IllFormed => false
  | _ => true
  end.

(** ** Machine integers *)

Module Int.

(** [unsigned]: 32 bits, arithmetic modulo [2^32]. *)
Definition wrap_unsigned (z : Z) : Z := z mod 2 ^ 32.

(** [unsigned __int64]: 64 bits, arithmetic modulo [2^64]. *)
Definition wrap_uint64 (z : Z) : Z := z mod 2 ^ 64.

(** [int]: 32 bits, two's complement. *)
Definition wrap_int (z : Z) : Z := (z + 2 ^ 31) mod 2 ^ 32 - 2 ^ 31.

(** The conversion of an [int] to [unsigned __int64] that the usual
    arithmetic conversions apply to the right operand of
    [m_fields & (int)]: the value modulo [2^64] (sign extension). *)
Definition int_to_uint64 (z : Z) : Z := z mod 2 ^ 64.

Definition in_range (width count : Z) : bool :=
  (0 <=? count) && (count <? width).

(** [a << n] on an [int] left operand. *)
Definition shl_int (a n : Z) : outcome Z :=
  if in_range 32 n then Returns (wrap_int (Z.shiftl a n)) else Undefined.

(** [a << n] on an [unsigned] left operand. *)
Definition shl_unsigned (a n : Z) : outcome Z :=
  if in_range 32 n then Returns (wrap_unsigned (Z.shiftl a n)) else Undefined.

(** [a << n] on an [unsigned __int64] left operand. *)
Definition shl_uint64 (a n : Z) : outcome Z :=
  if in_range 64 n then Returns (wrap_uint64 (Z.shiftl a n)) else Undefined.

(** [a >> n] on an [unsigned __int64] left operand. *)
Definition shr_uint64 (a n : Z) : outcome Z :=
  if in_range 64 n then Returns (Z.shiftr a n) else Undefined.

End Int.

(** ** Schemas: the instantiations of the class template *)

(** One constructor per class definition of the header. [Packed<W, void>]
    with [W = 0] names the full specialisation [Packed0], so [PackedW 0] is
    never the type an expression of the header has. *)
Inductive Schema : Type :=
| Packed0                            (* class Packed<0, void> *)
| PackedW (W : Z)                    (* class Packed<W, void> *)
| PackedWR (W : Z) (REST : Schema).  (* class Packed<W, REST>, the primary *)

(** [static const unsigned c_fieldCount]. *)
Fixpoint c_fieldCount (s : Schema) : Z :=
  match s with
  | Packed0 => 0
  | PackedW _ => 1
  | PackedWR _ REST => Int.wrap_unsigned (1 + c_fieldCount REST)
  end.

(** [static const unsigned __int64 c_fieldSizes]. In the primary template the
    operands of [W << (REST::c_fieldCount * 8)] are both [unsigned], so the
    shift is a 32-bit one; its result is widened for the [|]. *)
Fixpoint c_fieldSizes (s : Schema) : outcome Z :=
  match s with
  | Packed0 => Returns 0
  | PackedW W => Returns W
  | PackedWR W REST =>
      slot <- Int.shl_unsigned W (Int.wrap_unsigned (c_fieldCount REST * 8)) ;;
      rest <- c_fieldSizes REST ;;
      Returns (Z.lor slot rest)
  end.

(** ** Packed values *)

(** An object of class [s]: its only data member. *)
Record Packed (s : Schema) : Type := { m_fields : Z }.

Arguments m_fields {s} _.

(** [static Packed Create(unsigned __int64 value)]: the primary template and
    [Packed<W, void>] declare it with the same body; [Packed<0, void>]
    declares none, so naming it there does not compile. *)
Definition declares_Create (s : Schema) : bool :=
  match s with
  | Packed0 => false
  | _ => true
  end.

Definition Create (s : Schema) (value : Z) : outcome (Packed s) :=
  _ <- static_assert (declares_Create s) ;;
  let result := {| m_fields := value |} in
  Returns result.

(** A non-static member function takes the object it is called on and gives
    back its result together with the object after the call. *)

(** *** The primary template [Packed<W, REST>] *)

Module Packed_W_REST.
Section Members.
Variables (W : Z) (REST : Schema).

Definition Push (X : Z) (value : Z) (this : Packed (PackedWR W REST))
  : outcome (Packed (PackedWR X (PackedWR W REST))
             * Packed (PackedWR W REST)) :=
  _ <- static_assert (Int.wrap_unsigned (X + c_fieldCount REST) <=? 8) ;;
  shifted <- Int.shl_uint64 (m_fields this) X ;;
  let fields := Z.lor shifted value in
  result <- Create (PackedWR X (PackedWR W REST)) fields ;;
  Returns (result, this).

Definition Pop (this : Packed (PackedWR W REST))
  : outcome (Packed REST * Packed (PackedWR W REST)) :=
  _ <- static_assert (declares_Create REST) ;;
  shifted <- Int.shr_uint64 (m_fields this) W ;;
  result <- Create REST shifted ;;
  Returns (result, this).

Definition Back (this : Packed (PackedWR W REST))
  : outcome (Z * Packed (PackedWR W REST)) :=
  bit <- Int.shl_int 1 W ;;
  let mask := Int.wrap_int (bit - 1) in
  Returns (Z.land (m_fields this) (Int.int_to_uint64 mask), this).

Definition GetBits (this : Packed (PackedWR W REST))
  : outcome (Z * Packed (PackedWR W REST)) :=
  Returns (m_fields this, this).

(** [operator unsigned __int64()]. *)
Definition operator_unsigned_int64 (this : Packed (PackedWR W REST))
  : outcome (Z * Packed (PackedWR W REST)) :=
  Returns (m_fields this, this).

End Members.
End Packed_W_REST.

(** *** The partial specialisation [Packed<W, void>] *)

Module Packed_W_void.
Section Members.
Variable W : Z.

Definition Push (X : Z) (value : Z) (this : Packed (PackedW W))
  : outcome (Packed (PackedWR X (PackedW W)) * Packed (PackedW W)) :=
  shifted <- Int.shl_uint64 (m_fields this) X ;;
  let fields := Z.lor shifted value in
  result <- Create (PackedWR X (PackedW W)) fields ;;
  Returns (result, this).

Definition Back (this : Packed (PackedW W))
  : outcome (Z * Packed (PackedW W)) :=
  bit <- Int.shl_int 1 W ;;
  let mask := Int.wrap_int (bit - 1) in
  Returns (Z.land (m_fields this) (Int.int_to_uint64 mask), this).

Definition GetBits (this : Packed (PackedW W))
  : outcome (Z * Packed (PackedW W)) :=
  Returns (m_fields this, this).

(** [operator unsigned __int64()]. *)
Definition operator_unsigned_int64 (this : Packed (PackedW W))
  : outcome (Z * Packed (PackedW W)) :=
  Returns (m_fields this, this).

End Members.
End Packed_W_void.

(** *** The full specialisation [Packed<0, void>] *)

Module Packed_0_void.

(** [static Packed<X, void> Push(unsigned __int64 value)]: no object is
    involved. For [X = 0] the type [Packed<X>] is this very class, which has
    no [Create]: the call does not compile. Otherwise [Packed<X>] is the
    partial specialisation. *)
Definition Push (X : Z) (value : Z) : outcome (Packed (PackedW X)) :=
  _ <- static_assert (negb (X =? 0)) ;;
  let fields := value in
  Create (PackedW X) fields.

End Packed_0_void.

(** ** Chains of calls *)

(** The value a chain of calls has reached: the class [Packed<>] itself, on
    which only the static [Push] can be called, or an object of some class.
    The C++ compiler picks the member by the static type; here the type
    travels with the object. *)
Inductive chain : Type :=
| Nothing
| Object (s : Schema) (this : Packed s).

(** [c.Push<X>(value)] *)
Definition Push_any (X value : Z) (c : chain) : outcome chain :=
  match c with
  | Nothing | Object Packed0 _ =>
      r <- Packed_0_void.Push X value ;;
      Returns (Object _ r)
  | Object (PackedW W) this =>
      r <- Packed_W_void.Push W X value this ;;
      Returns (Object _ (fst r))
  | Object (PackedWR W REST) this =>
      r <- Packed_W_REST.Push W REST X value this ;;
      Returns (Object _ (fst r))
  end.

(** [c.Back()] *)
Definition Back_any (c : chain) : outcome Z :=
  match c with
  | Nothing | Object Packed0 _ => IllFormed
  | Object (PackedW W) this =>
      r <- Packed_W_void.Back W this ;;
      Returns (fst r)
  | Object (PackedWR W REST) this =>
      r <- Packed_W_REST.Back W REST this ;;
      Returns (fst r)
  end.

(** [c.Pop()]: only the primary template declares it. *)
Definition Pop_any (c : chain) : outcome chain :=
  match c with
  | Object (PackedWR W REST) this =>
      r <- Packed_W_REST.Pop W REST this ;;
      Returns (Object REST (fst r))
  | _ => IllFormed
  end.

(** The static type of a chain value. *)
Definition type_of (c : chain) : Schema :=
  match c with
  | Nothing => Packed0
  | Object s _ => s
  end.

(** [Packed<>::Push<X1>(v1).Push<X2>(v2)...]: the fields are pairs
    [(width, value)], first pushed first. *)
Fixpoint Push_all (fields : list (Z * Z)) (c : chain) : outcome chain :=
  match fields with
  | [] => Returns c
  | (X, value) :: rest =>
      c' <- Push_any X value c ;;
      Push_all rest c'
  end.

Definition pack (fields : list (Z * Z)) : outcome chain :=
  Push_all fields Nothing.

(** Decoding [n] fields: [Back()] on the object, then on its [Pop()], and so
    on; the innermost object (of class [Packed<W, void>]) is only read. *)
Fixpoint unpack (n : nat) (c : chain) : outcome (list Z) :=
  match n with
  | O => Returns []
  | S n' =>
      b <- Back_any c ;;
      match n' with
      | O => Returns [b]
      | S _ =>
          c' <- Pop_any c ;;
          bs <- unpack n' c' ;;
          Returns (b :: bs)
      end
  end.

(** ** The descriptor as the specification words it *)

(** [fieldSizeDescriptor]: each field's width in its own 8-bit slot of a
    64-bit word, [(W << (Rest.fieldCount * 8)) | Rest.fieldSizeDescriptor]
    in 64-bit arithmetic. *)
Fixpoint fieldSizeDescriptor_spec (s : Schema) : Z :=
  match s with
  | Packed0 => 0
  | PackedW W => W
  | PackedWR W REST =>
      Z.lor (Int.wrap_uint64 (Z.shiftl W (c_fieldCount REST * 8)))
            (fieldSizeDescriptor_spec REST)
  end.

(** The widths of a schema's fields, most recently pushed first. *)
Fixpoint widths (s : Schema) : list Z :=
  match s with
  | Packed0 => []
  | PackedW W => [W]
  | PackedWR W REST => W :: widths REST
  end.

(** ** What a chain of pushes is meant to build *)

(** A stack of fields [(width, value)], most recently pushed first, the
    class that holds it and the bits that encode it: each field above the
    ones pushed before it. *)
Fixpoint schema_of (stack : list (Z * Z)) : Schema :=
  match stack with
  | [] => Packed0
  | (X, _) :: rest =>
      match rest with
      | [] => PackedW X
      | _ :: _ => PackedWR X (schema_of rest)
      end
  end.

Fixpoint bits_of (stack : list (Z * Z)) : Z :=
  match stack with
  | [] => 0
  | (X, v) :: rest => bits_of rest * 2 ^ X + v
  end.

Definition object_of (stack : list (Z * Z)) : chain :=
  match stack with
  | [] => Nothing
  | _ :: _ => Object (schema_of stack) {| m_fields := bits_of stack |}
  end.

Fixpoint total_width (fields : list (Z * Z)) : Z :=
  match fields with
  | [] => 0
  | (X, _) :: rest => X + total_width rest
  end.

(** A field whose value fits its width, the width being one that [Back]
    can mask. *)
Definition maskable (f : Z * Z) : Prop :=
  0 <= fst f <= 31 /\ 0 <= snd f < 2 ^ fst f.

(** ** Reading a raw word *)

(** The raw bits a chain value carries; the class [Packed<>] carries none. *)
Definition raw_bits (c : chain) : Z :=
  match c with
  | Nothing => 0
  | Object _ this => m_fields this
  end.

(** The bit slices of a word, lowest first: [w] bits, then the next ones. *)
Fixpoint slices (x : Z) (ws : list Z) : list Z :=
  match ws with
  | [] => []
  | w :: rest => x mod 2 ^ w :: slices (Z.shiftr x w) rest
  end.

(** Byte [k] of a 64-bit descriptor, byte 0 the least significant. *)
Definition byte_of (d : Z) (k : nat) : Z :=
  Z.land (Z.shiftr d (8 * Z.of_nat k)) 255.

(** A field whose value fits its width, the width being one that the 64-bit
    shifts of [Push] and [Pop] take. *)
Definition packable (f : Z * Z) : Prop :=
  0 <= fst f <= 63 /\ 0 <= snd f < 2 ^ fst f.

(** * Properties *)

(** ** Machine integers *)

Ltac run :=
  cbv [Create declares_Create static_assert bind
       Int.shl_uint64 Int.shr_uint64 Int.shl_int Int.shl_unsigned].

Lemma in_range_true (width count : Z) :
  0 <= count < width -> Int.in_range width count = true.
Proof.
  intros H. unfold Int.in_range.
  apply andb_true_intro; split; [apply Z.leb_le | apply Z.ltb_lt]; lia.
Qed.

Lemma in_range_false (width count : Z) :
  width <= count -> Int.in_range width count = false.
Proof.
  intros H. unfold Int.in_range.
  apply andb_false_intro2. apply Z.ltb_ge. exact H.
Qed.

(** The mask [(1 << W) - 1], computed on [int] and widened to 64 bits, is
    [2^W - 1] as long as the shift count is below 32; at [W = 31] the
    subtraction wraps from the least [int] to the greatest. *)
Lemma int_mask_ones (W : Z) :
  0 <= W < 32 ->
  Int.int_to_uint64 (Int.wrap_int (Int.wrap_int (Z.shiftl 1 W) - 1)) = Z.ones W.
Proof.
  intros HW.
  destruct (Z.eq_dec W 31) as [-> | Hne]; [reflexivity |].
  rewrite Z.shiftl_mul_pow2, Z.mul_1_l, Z.ones_equiv by lia.
  assert (Hp : 0 < 2 ^ W <= 2 ^ 30).
  { split; [apply Z.pow_pos_nonneg | apply Z.pow_le_mono_r]; lia. }
  unfold Int.int_to_uint64, Int.wrap_int.
  change (2 ^ 30) with 1073741824 in Hp.
  change (2 ^ 31) with 2147483648.
  change (2 ^ 32) with 4294967296.
  change (2 ^ 64) with 18446744073709551616.
  set (p := 2 ^ W) in *.
  rewrite (Z.mod_small (p + 2147483648)) by lia.
  rewrite (Z.mod_small (p + 2147483648 - 2147483648 - 1 + 2147483648)) by lia.
  rewrite Z.mod_small by lia.
  lia.
Qed.

(** The field just pushed occupies the low [X] bits on its own. *)
Lemma low_bits_of_push (b X v : Z) :
  0 <= X ->
  Z.land (Z.lor (Int.wrap_uint64 (Z.shiftl b X)) v) (Z.ones X) = v mod 2 ^ X.
Proof.
  intros HX.
  rewrite Z.land_lor_distr_l, (Z.land_ones v) by lia.
  replace (Z.land (Int.wrap_uint64 (Z.shiftl b X)) (Z.ones X)) with 0;
    [apply Z.lor_0_l |].
  symmetry. apply Z.bits_inj'. intros n Hn.
  rewrite Z.land_spec, Z.bits_0, Z.testbit_ones_nonneg by lia.
  destruct (Z.ltb_spec n X) as [Hlt | Hge]; [| apply andb_false_r].
  unfold Int.wrap_uint64.
  rewrite Z.testbit_mod_pow2, Z.shiftl_spec_low by lia.
  rewrite andb_false_r. reflexivity.
Qed.

(** [|] on 64-bit operands commutes with reduction modulo [2^64]. *)
Lemma lor_wrap_uint64 (a v : Z) :
  0 <= v < 2 ^ 64 ->
  Z.lor (Int.wrap_uint64 a) v = Int.wrap_uint64 (Z.lor a v).
Proof.
  intros Hv. unfold Int.wrap_uint64.
  rewrite <- !Z.land_ones by lia.
  rewrite Z.land_lor_distr_l, (Z.land_ones v) by lia.
  rewrite (Z.mod_small v) by lia. reflexivity.
Qed.

(** ** What [Back] computes *)

Lemma Packed_W_void_Back_low (W : Z) (this : Packed (PackedW W)) :
  0 <= W < 32 ->
  Packed_W_void.Back W this = Returns (m_fields this mod 2 ^ W, this).
Proof.
  intros HW. unfold Packed_W_void.Back. run.
  rewrite in_range_true by lia.
  rewrite int_mask_ones, Z.land_ones by lia. reflexivity.
Qed.

Lemma Packed_W_REST_Back_low (W : Z) (REST : Schema)
  (this : Packed (PackedWR W REST)) :
  0 <= W < 32 ->
  Packed_W_REST.Back W REST this = Returns (m_fields this mod 2 ^ W, this).
Proof.
  intros HW. unfold Packed_W_REST.Back. run.
  rewrite in_range_true by lia.
  rewrite int_mask_ones, Z.land_ones by lia. reflexivity.
Qed.

Lemma Packed_W_void_Back_wide (W : Z) (this : Packed (PackedW W)) :
  32 <= W -> Packed_W_void.Back W this = Undefined.
Proof.
  intros HW. unfold Packed_W_void.Back. run.
  rewrite in_range_false by lia. reflexivity.
Qed.

Lemma Packed_W_REST_Back_wide (W : Z) (REST : Schema)
  (this : Packed (PackedWR W REST)) :
  32 <= W -> Packed_W_REST.Back W REST this = Undefined.
Proof.
  intros HW. unfold Packed_W_REST.Back. run.
  rewrite in_range_false by lia. reflexivity.
Qed.

(** ** [Create], [GetBits] and the conversion operator *)

(** C7. In both classes that hold a value, [Create(x)] checks nothing and
    gives an object whose [m_fields] is [x], and [GetBits()] on that object
    gives [x] back; this holds for every integer [x], the 64-bit ones among
    them. *)
Theorem Create_GetBits :
  (forall (W : Z) (REST : Schema) (x : Z),
      exists p,
        Create (PackedWR W REST) x = Returns p /\
        m_fields p = x /\
        Packed_W_REST.GetBits W REST p = Returns (x, p)) /\
  (forall (W x : Z),
      exists p,
        Create (PackedW W) x = Returns p /\
        m_fields p = x /\
        Packed_W_void.GetBits W p = Returns (x, p)).
Proof.
  split; intros.
  - exists {| m_fields := x |}. repeat split.
  - exists {| m_fields := x |}. repeat split.
Qed.

(** C8. In both classes that hold a value, the conversion to
    [unsigned __int64] gives what [GetBits()] gives: the raw bits. *)
Theorem conversion_is_GetBits :
  (forall (W : Z) (REST : Schema) (this : Packed (PackedWR W REST)),
      Packed_W_REST.operator_unsigned_int64 W REST this
        = Packed_W_REST.GetBits W REST this /\
      Packed_W_REST.GetBits W REST this = Returns (m_fields this, this)) /\
  (forall (W : Z) (this : Packed (PackedW W)),
      Packed_W_void.operator_unsigned_int64 W this
        = Packed_W_void.GetBits W this /\
      Packed_W_void.GetBits W this = Returns (m_fields this, this)).
Proof.
  split; intros; split; reflexivity.
Qed.

(** ** The object a member function is called on *)

Lemma bind_Returns {A B : Type} (o : outcome A) (k : A -> outcome B) (b : B) :
  bind o k = Returns b -> exists a, o = Returns a /\ k a = Returns b.
Proof.
  destruct o as [a | |]; simpl; intros H; try discriminate.
  exists a. split; [reflexivity | exact H].
Qed.

Lemma compiles_bind {A B : Type} (o : outcome A) (k : A -> outcome B) :
  compiles (bind o k) = true -> compiles o = true.
Proof.
  destruct o; simpl; intros H; [reflexivity | reflexivity | discriminate H].
Qed.

(** C9. Whenever a call of [Push], [Pop], [Back], [GetBits] or the
    conversion operator returns, the object it was called on is as it was
    before ([m_fields] unchanged), and what [Push] and [Pop] return is an
    object newly made by [Create]. *)
Theorem members_leave_object_unchanged :
  (forall W REST X value this r this',
      Packed_W_REST.Push W REST X value this = Returns (r, this') ->
      m_fields this' = m_fields this /\
      exists fields, Create (PackedWR X (PackedWR W REST)) fields = Returns r) /\
  (forall W REST this r this',
      Packed_W_REST.Pop W REST this = Returns (r, this') ->
      m_fields this' = m_fields this /\
      exists fields, Create REST fields = Returns r) /\
  (forall W REST this r this',
      Packed_W_REST.Back W REST this = Returns (r, this') ->
      m_fields this' = m_fields this) /\
  (forall W REST this r this',
      Packed_W_REST.GetBits W REST this = Returns (r, this') ->
      m_fields this' = m_fields this) /\
  (forall W REST this r this',
      Packed_W_REST.operator_unsigned_int64 W REST this = Returns (r, this') ->
      m_fields this' = m_fields this) /\
  (forall W X value this r this',
      Packed_W_void.Push W X value this = Returns (r, this') ->
      m_fields this' = m_fields this /\
      exists fields, Create (PackedWR X (PackedW W)) fields = Returns r) /\
  (forall W this r this',
      Packed_W_void.Back W this = Returns (r, this') ->
      m_fields this' = m_fields this) /\
  (forall W this r this',
      Packed_W_void.GetBits W this = Returns (r, this') ->
      m_fields this' = m_fields this) /\
  (forall W this r this',
      Packed_W_void.operator_unsigned_int64 W this = Returns (r, this') ->
      m_fields this' = m_fields this).
Proof.
  repeat split; intros;
    repeat match goal with
      | H : bind _ _ = Returns _ |- _ =>
          apply bind_Returns in H; destruct H as [? [? H]]
      | H : Packed_W_REST.Push _ _ _ _ _ = Returns _ |- _ =>
          unfold Packed_W_REST.Push in H
      | H : Packed_W_REST.Pop _ _ _ = Returns _ |- _ =>
          unfold Packed_W_REST.Pop in H
      | H : Packed_W_REST.Back _ _ _ = Returns _ |- _ =>
          unfold Packed_W_REST.Back in H
      | H : Packed_W_REST.GetBits _ _ _ = Returns _ |- _ =>
          unfold Packed_W_REST.GetBits in H
      | H : Packed_W_REST.operator_unsigned_int64 _ _ _ = Returns _ |- _ =>
          unfold Packed_W_REST.operator_unsigned_int64 in H
      | H : Packed_W_void.Push _ _ _ _ = Returns _ |- _ =>
          unfold Packed_W_void.Push in H
      | H : Packed_W_void.Back _ _ = Returns _ |- _ =>
          unfold Packed_W_void.Back in H
      | H : Packed_W_void.GetBits _ _ = Returns _ |- _ =>
          unfold Packed_W_void.GetBits in H
      | H : Packed_W_void.operator_unsigned_int64 _ _ = Returns _ |- _ =>
          unfold Packed_W_void.operator_unsigned_int64 in H
      | H : Returns (_, _) = Returns (_, _) |- _ =>
          injection H as ? ?; subst
      end;
    try reflexivity; eauto.
Qed.

(** At [Packed<3>] holding 5, [Push<4>(9)] returns and leaves the 5 in
    place. *)
Lemma members_leave_object_unchanged_witness :
  exists r this',
    Packed_W_void.Push 3 4 9 {| m_fields := 5 |} = Returns (r, this') /\
    m_fields this' = 5.
Proof.
  exists {| m_fields := 89 |}, {| m_fields := 5 |}.
  split; [reflexivity |].
  destruct members_leave_object_unchanged as (_ & _ & _ & _ & _ & H & _).
  apply (H 3 4 9 {| m_fields := 5 |} {| m_fields := 89 |} {| m_fields := 5 |}).
  reflexivity.
Defined.

(** ** [Push] *)

Lemma Packed_W_void_Push_value (W X value : Z) (this : Packed (PackedW W)) :
  0 <= X < 64 ->
  Packed_W_void.Push W X value this
    = Returns ({| m_fields :=
                   Z.lor (Int.wrap_uint64 (Z.shiftl (m_fields this) X)) value |},
               this).
Proof.
  intros HX. unfold Packed_W_void.Push. run.
  rewrite in_range_true by lia. reflexivity.
Qed.

Lemma Packed_W_REST_Push_value (W : Z) (REST : Schema) (X value : Z)
  (this : Packed (PackedWR W REST)) :
  0 <= X < 64 ->
  compiles (Packed_W_REST.Push W REST X value this) = true ->
  Packed_W_REST.Push W REST X value this
    = Returns ({| m_fields :=
                   Z.lor (Int.wrap_uint64 (Z.shiftl (m_fields this) X)) value |},
               this).
Proof.
  intros HX. unfold Packed_W_REST.Push. run.
  destruct (Int.wrap_unsigned (X + c_fieldCount REST) <=? 8);
    [| discriminate].
  rewrite in_range_true by lia. reflexivity.
Qed.

Lemma Packed_0_void_Push_value (X value : Z) :
  X <> 0 -> Packed_0_void.Push X value = Returns {| m_fields := value |}.
Proof.
  intros HX. unfold Packed_0_void.Push. run.
  destruct (Z.eqb_spec X 0) as [H0 | _]; [contradiction | reflexivity].
Qed.

(** C10 as stated, at two inputs: not every object takes a push of every
    width from 1 to 31. On an object of the nine-field class of one-bit
    fields, [Push<1>] is refused by the static assertion of [Push], the
    guard on the number of fields (a tenth field). On [Packed<1, Packed<1>>]
    holding 3, [Push<8>] is refused by the same assertion (8 + 1 > 8). In
    both there is no object whose [Back()] could be [v mod 2^X]. *)
Lemma Push_refused_no_Back :
  (~ exists q this' q',
       Packed_W_REST.Push 1
         (PackedWR 1 (PackedWR 1 (PackedWR 1 (PackedWR 1
            (PackedWR 1 (PackedWR 1 (PackedWR 1 (PackedW 1))))))))
         1 0 {| m_fields := 511 |} = Returns (q, this') /\
       Packed_W_REST.Back 1 _ q = Returns (0 mod 2 ^ 1, q')) /\
  (~ exists q this' q',
       Packed_W_REST.Push 1 (PackedW 1) 8 0 {| m_fields := 3 |}
         = Returns (q, this') /\
       Packed_W_REST.Back 8 _ q = Returns (0 mod 2 ^ 8, q')).
Proof.
  split; intros (q & this' & q' & H & _); discriminate H.
Qed.

(** C10, amended. For a width [X] from 1 to 31, whatever the pushed value
    [v], whenever the call [Push<X>(v)] compiles, the object it returns
    holds [v] unmasked in its raw bits ([(bits << X) | v], or [v] itself on
    the empty class) and its [Back()] is [v mod 2^X]. On the empty class and
    on the one-field class every such call compiles; on the primary
    template the static assertion of [Push] decides.
    [Packed<>::Push<3>(9)] has raw bits 9 and [Back()] 1. *)
Theorem Push_Back_truncates :
  (forall X v : Z,
      1 <= X <= 31 ->
      exists q,
        Packed_0_void.Push X v = Returns q /\
        m_fields q = v /\
        Packed_W_void.Back X q = Returns (v mod 2 ^ X, q)) /\
  (forall (W X v : Z) (this : Packed (PackedW W)),
      1 <= X <= 31 ->
      exists q,
        Packed_W_void.Push W X v this = Returns (q, this) /\
        m_fields q = Z.lor (Int.wrap_uint64 (Z.shiftl (m_fields this) X)) v /\
        Packed_W_REST.Back X (PackedW W) q = Returns (v mod 2 ^ X, q)) /\
  (forall (W : Z) (REST : Schema) (X v : Z) (this : Packed (PackedWR W REST)),
      1 <= X <= 31 ->
      compiles (Packed_W_REST.Push W REST X v this) = true ->
      exists q,
        Packed_W_REST.Push W REST X v this = Returns (q, this) /\
        m_fields q = Z.lor (Int.wrap_uint64 (Z.shiftl (m_fields this) X)) v /\
        Packed_W_REST.Back X (PackedWR W REST) q = Returns (v mod 2 ^ X, q)) /\
  (exists q,
      Packed_0_void.Push 3 9 = Returns q /\
      m_fields q = 9 /\
      Packed_W_void.Back 3 q = Returns (1, q)).
Proof.
  split; [| split; [| split]].
  - intros X v HX.
    exists {| m_fields := v |}. split; [| split].
    + apply Packed_0_void_Push_value. lia.
    + reflexivity.
    + rewrite Packed_W_void_Back_low by lia. reflexivity.
  - intros W X v this HX.
    eexists. split; [| split].
    + apply Packed_W_void_Push_value. lia.
    + reflexivity.
    + rewrite Packed_W_REST_Back_low by lia. cbn [m_fields].
      rewrite <- Z.land_ones, low_bits_of_push by lia. reflexivity.
  - intros W REST X v this HX Hc.
    eexists. split; [| split].
    + apply Packed_W_REST_Push_value; [lia | exact Hc].
    + reflexivity.
    + rewrite Packed_W_REST_Back_low by lia. cbn [m_fields].
      rewrite <- Z.land_ones, low_bits_of_push by lia. reflexivity.
  - exists {| m_fields := 9 |}. repeat split.
Qed.

(** On [Packed<5, Packed<3>>] holding 45, [Push<4>(25)] compiles; the
    returned object holds [(45 << 4) | 25 = 729] and its [Back()] is
    [25 mod 16 = 9]. *)
Lemma Push_Back_truncates_witness :
  exists q,
    Packed_W_REST.Push 5 (PackedW 3) 4 25 {| m_fields := 45 |}
      = Returns (q, {| m_fields := 45 |}) /\
    m_fields q = 729 /\
    Packed_W_REST.Back 4 (PackedWR 5 (PackedW 3)) q = Returns (9, q).
Proof.
  destruct Push_Back_truncates as (_ & _ & H & _).
  destruct (H 5 (PackedW 3) 4 25 {| m_fields := 45 |}) as (q & Hq & Hf & Hb);
    [lia | reflexivity |].
  exists q. split; [exact Hq | split; [| exact Hb]].
  rewrite Hf. reflexivity.
Defined.

(** C1, at the failing input [W = 32], [v = 1]: [Packed<>::Push<32>(1)]
    returns an object holding 1, and [Back()] on it shifts the [int] 1 by
    32, the width of [int]: the call has no defined result, where it is
    specified to return 1. *)
Theorem Push_32_Back_undefined :
  exists q,
    Packed_0_void.Push 32 1 = Returns q /\
    m_fields q = 1 /\
    Packed_W_void.Back 32 q = Undefined.
Proof.
  exists {| m_fields := 1 |}. repeat split.
Qed.

(** C3 as stated, at [X = 64]: on [Packed<1>] holding 1, [Push<64>(0)]
    would return raw bits [((1 << 64) | 0) mod 2^64 = 0]; the call shifts a
    64-bit operand by 64 and returns nothing defined. *)
Lemma Push_64_not_shifted :
  ~ exists q this',
      Packed_W_void.Push 1 64 0 {| m_fields := 1 |} = Returns (q, this') /\
      m_fields q = Int.wrap_uint64 (Z.lor (Z.shiftl 1 64) 0).
Proof.
  intros (q & this' & H & _). discriminate H.
Qed.

(** C3, amended. For a width [X] below 64, every object [this] and every
    64-bit value [v], [Push<X>(v)] returns an object whose raw bits are
    [((bits << X) | v) mod 2^64], with no masking of [v] (on the primary
    template, for the calls its static assertion lets compile); on the
    empty class, for every width other than 0, [Push<X>(v)] returns an
    object whose raw bits are [v]. *)
Theorem Push_raw_bits :
  (forall (W X v : Z) (this : Packed (PackedW W)),
      0 <= X < 64 -> 0 <= v < 2 ^ 64 ->
      exists q,
        Packed_W_void.Push W X v this = Returns (q, this) /\
        m_fields q = Int.wrap_uint64 (Z.lor (Z.shiftl (m_fields this) X) v)) /\
  (forall (W : Z) (REST : Schema) (X v : Z) (this : Packed (PackedWR W REST)),
      0 <= X < 64 -> 0 <= v < 2 ^ 64 ->
      compiles (Packed_W_REST.Push W REST X v this) = true ->
      exists q,
        Packed_W_REST.Push W REST X v this = Returns (q, this) /\
        m_fields q = Int.wrap_uint64 (Z.lor (Z.shiftl (m_fields this) X) v)) /\
  (forall X v : Z,
      X <> 0 ->
      exists q, Packed_0_void.Push X v = Returns q /\ m_fields q = v).
Proof.
  split; [| split].
  - intros W X v this HX Hv. eexists. split.
    + apply Packed_W_void_Push_value. exact HX.
    + cbn [m_fields]. apply lor_wrap_uint64. exact Hv.
  - intros W REST X v this HX Hv Hc. eexists. split.
    + apply Packed_W_REST_Push_value; assumption.
    + cbn [m_fields]. apply lor_wrap_uint64. exact Hv.
  - intros X v HX. eexists. split.
    + apply Packed_0_void_Push_value. exact HX.
    + reflexivity.
Qed.

(** On [Packed<3>] holding 5, [Push<4>(255)] returns raw bits
    [(5 << 4) | 255 = 255]: the oversized value overwrites the field
    beneath. *)
Lemma Push_raw_bits_witness :
  exists q,
    Packed_W_void.Push 3 4 255 {| m_fields := 5 |}
      = Returns (q, {| m_fields := 5 |}) /\
    m_fields q = 255.
Proof.
  destruct Push_raw_bits as (H & _).
  destruct (H 3 4 255 {| m_fields := 5 |}) as (q & Hq & Hf); [lia | lia |].
  exists q. split; [exact Hq |].
  rewrite Hf. reflexivity.
Defined.

(** ** [Pop] *)

Lemma two_fields_declares_Create (W : Z) (REST : Schema) :
  2 <= c_fieldCount (PackedWR W REST) -> declares_Create REST = true.
Proof.
  destruct REST as [| W' | W' REST']; intros H; try reflexivity.
  vm_compute in H. exfalso. apply H. reflexivity.
Qed.

(** C4 as stated, at [W = 64]: on [Packed<64, Packed<1>>] holding 1,
    [Pop()] would return raw bits [1 >> 64 = 0]; the call shifts a 64-bit
    operand by 64 and returns nothing defined. *)
Lemma Pop_64_not_shifted :
  2 <= c_fieldCount (PackedWR 64 (PackedW 1)) /\
  ~ exists r this',
      Packed_W_REST.Pop 64 (PackedW 1) {| m_fields := 1 |} = Returns (r, this') /\
      m_fields r = Z.shiftr 1 64.
Proof.
  split; [vm_compute; discriminate |].
  intros (r & this' & H & _). discriminate H.
Qed.

(** C4, amended. For an object of a class [Packed<W, REST>] with at least
    two fields and [W] below 64, [Pop()] returns [REST::Create(bits >> W)]:
    the raw bits of the result are those of the object shifted right by [W],
    bit [i] of the result being bit [i + W] of the object. *)
Theorem Pop_shifts_right (W : Z) (REST : Schema)
  (this : Packed (PackedWR W REST)) :
  2 <= c_fieldCount (PackedWR W REST) ->
  0 <= W < 64 ->
  exists bits r,
    Packed_W_REST.GetBits W REST this = Returns (bits, this) /\
    Packed_W_REST.Pop W REST this = Returns (r, this) /\
    Create REST (Z.shiftr bits W) = Returns r /\
    m_fields r = m_fields this / 2 ^ W /\
    (forall i, 0 <= i ->
               Z.testbit (m_fields r) i = Z.testbit (m_fields this) (i + W)).
Proof.
  intros Htwo HW.
  apply two_fields_declares_Create in Htwo.
  exists (m_fields this), {| m_fields := Z.shiftr (m_fields this) W |}.
  split; [reflexivity |].
  split; [| split; [| split]].
  - unfold Packed_W_REST.Pop, Create, static_assert, Int.shr_uint64.
    rewrite Htwo, in_range_true by lia. reflexivity.
  - unfold Create, static_assert. rewrite Htwo. reflexivity.
  - cbn [m_fields]. apply Z.shiftr_div_pow2. lia.
  - intros i Hi. cbn [m_fields]. apply Z.shiftr_spec. exact Hi.
Qed.

(** On [Packed<4, Packed<3>>] holding 89 (5 under 9), [Pop()] returns the
    object holding [89 >> 4 = 5]. *)
Lemma Pop_shifts_right_witness :
  exists r,
    Packed_W_REST.Pop 4 (PackedW 3) {| m_fields := 89 |}
      = Returns (r, {| m_fields := 89 |}) /\
    m_fields r = 5.
Proof.
  destruct (Pop_shifts_right 4 (PackedW 3) {| m_fields := 89 |})
    as (bits & r & _ & Hp & _ & Hf & _).
  - vm_compute. discriminate.
  - lia.
  - exists r. split; [exact Hp |].
    rewrite Hf. reflexivity.
Defined.

(** ** The field count and the static assertion *)

Lemma c_fieldCount_range (s : Schema) : 0 <= c_fieldCount s < 2 ^ 32.
Proof.
  destruct s as [| W | W REST]; cbn [c_fieldCount].
  - lia.
  - lia.
  - apply Z.mod_pos_bound. lia.
Qed.

(** A push that returns adds one to [c_fieldCount]. *)
Lemma Push_any_fieldCount (X value : Z) (c c' : chain) :
  Push_any X value c = Returns c' ->
  c_fieldCount (type_of c')
    = Int.wrap_unsigned (1 + c_fieldCount (type_of c)).
Proof.
  destruct c as [| [| W | W REST] this]; cbn [Push_any]; intros H;
    apply bind_Returns in H; destruct H as (r & _ & H);
    injection H as <-; reflexivity.
Qed.

(** After [n] pushes that return, [c_fieldCount] is [n] (as an
    [unsigned]). *)
Lemma Push_all_fieldCount (fields : list (Z * Z)) (c c' : chain) :
  Push_all fields c = Returns c' ->
  c_fieldCount (type_of c')
    = Int.wrap_unsigned (c_fieldCount (type_of c) + Z.of_nat (length fields)).
Proof.
  revert c. induction fields as [| [X value] rest IH]; intros c H.
  - injection H as <-. cbn [length Z.of_nat]. rewrite Z.add_0_r.
    unfold Int.wrap_unsigned. symmetry. apply Z.mod_small.
    apply c_fieldCount_range.
  - cbn [Push_all] in H. apply bind_Returns in H.
    destruct H as (c1 & H1 & H).
    rewrite (IH c1 H), (Push_any_fieldCount _ _ _ _ H1).
    unfold Int.wrap_unsigned. rewrite Zplus_mod_idemp_l.
    f_equal. cbn [length]. lia.
Qed.

(** Two pushes from the empty class give a class of two fields. *)
Lemma Push_all_fieldCount_witness :
  c_fieldCount (PackedWR 4 (PackedW 3)) = 2.
Proof.
  apply (Push_all_fieldCount [(3, 5); (4, 9)] Nothing
           (Object (PackedWR 4 (PackedW 3)) {| m_fields := 89 |})).
  reflexivity.
Defined.

(** C5, at two failing inputs. On the two-field class
    [Packed<1, Packed<1>>], [Push<8>] is rejected by the static assertion
    although the result would have three fields. On the eight-field class of
    one-bit fields, [Push<1>] is accepted and the result has nine fields.
    The assertion compares the new field's width plus the field count of
    [REST] with 8. *)
Theorem Push_static_assert_counts_width :
  (exists c,
      pack [(1, 0); (1, 0)] = Returns c /\
      c_fieldCount (type_of c) = 2 /\
      Push_any 8 0 c = IllFormed /\
      c_fieldCount (PackedWR 8 (type_of c)) = 3) /\
  (exists c c',
      pack [(1, 0); (1, 0); (1, 0); (1, 0); (1, 0); (1, 0); (1, 0); (1, 0)]
        = Returns c /\
      c_fieldCount (type_of c) = 8 /\
      Push_any 1 0 c = Returns c' /\
      c_fieldCount (type_of c') = 9).
Proof.
  split.
  - eexists. split; [reflexivity |]. repeat split.
  - eexists. eexists. split; [reflexivity |]. repeat split.
Qed.

(** ** The field size descriptor *)

(** C6, at the failing input of five one-bit fields: the descriptor in
    64-bit arithmetic is [0x0101010101]; in the header the fifth width is
    shifted by 32 as a 32-bit [unsigned], which has no defined value, so the
    constant has none either. *)
Theorem c_fieldSizes_five_fields :
  fieldSizeDescriptor_spec
    (PackedWR 1 (PackedWR 1 (PackedWR 1 (PackedWR 1 (PackedW 1)))))
    = 4311810305 /\
  c_fieldSizes
    (PackedWR 1 (PackedWR 1 (PackedWR 1 (PackedWR 1 (PackedW 1)))))
    = Undefined.
Proof.
  split; reflexivity.
Qed.

(** Whatever 32-bit value a compiler gives the shift, the constant read
    from the header is not the 64-bit descriptor: no bit above bit 31 can
    be set by a 32-bit operand. *)
Lemma c_fieldSizes_five_fields_any_slot (slot : Z) :
  0 <= slot < 2 ^ 32 ->
  Z.lor slot 16843009
    <> fieldSizeDescriptor_spec
         (PackedWR 1 (PackedWR 1 (PackedWR 1 (PackedWR 1 (PackedW 1))))).
Proof.
  intros Hs Heq.
  assert (Hb : Z.testbit (Z.lor slot 16843009) 32 = true).
  { rewrite Heq. reflexivity. }
  rewrite Z.lor_spec in Hb.
  replace (Z.testbit slot 32) with false in Hb; [discriminate Hb |].
  symmetry. rewrite <- (Z.mod_small slot (2 ^ 32)) by exact Hs.
  apply Z.mod_pow2_bits_high. lia.
Qed.

Lemma c_fieldCount_length (s : Schema) :
  c_fieldCount s = Int.wrap_unsigned (Z.of_nat (length (widths s))).
Proof.
  induction s as [| W | W REST IH]; try reflexivity.
  cbn [c_fieldCount widths length]. rewrite IH.
  unfold Int.wrap_unsigned. rewrite Zplus_mod_idemp_r.
  f_equal. lia.
Qed.

(** For at most four fields of widths below 256 the 32-bit shift loses
    nothing: the constant of the header is the descriptor of the
    specification. *)
Lemma c_fieldSizes_four_fields (s : Schema) :
  (length (widths s) <= 4)%nat ->
  Forall (fun W => 0 <= W < 2 ^ 8) (widths s) ->
  c_fieldSizes s = Returns (fieldSizeDescriptor_spec s).
Proof.
  induction s as [| W | W REST IH]; intros Hc Hw; try reflexivity.
  cbn [widths length] in Hc. cbn [widths] in Hw.
  apply Forall_cons_iff in Hw. destruct Hw as [HW Hw].
  assert (Hn : 0 <= c_fieldCount REST <= 3).
  { rewrite c_fieldCount_length. unfold Int.wrap_unsigned.
    rewrite Z.mod_small by lia. lia. }
  cbn [c_fieldSizes fieldSizeDescriptor_spec].
  rewrite IH by (assumption || lia).
  unfold Int.shl_unsigned, Int.wrap_unsigned, Int.wrap_uint64.
  rewrite (Z.mod_small (c_fieldCount REST * 8)) by lia.
  rewrite in_range_true by lia. cbn [bind].
  rewrite Z.shiftl_mul_pow2 by lia.
  assert (Hs : 0 <= W * 2 ^ (c_fieldCount REST * 8) < 2 ^ 32).
  { assert (0 < 2 ^ (c_fieldCount REST * 8) <= 2 ^ 24)
      by (split; [apply Z.pow_pos_nonneg | apply Z.pow_le_mono_r]; lia).
    change (2 ^ 32) with (2 ^ 8 * 2 ^ 24). nia. }
  rewrite !Z.mod_small by lia. reflexivity.
Qed.

(** [Packed<5, Packed<4, Packed<3, Packed<7>>>>]: the widths 5, 4, 3, 7 in
    the bytes of [0x05040307]. *)
Lemma c_fieldSizes_four_fields_witness :
  c_fieldSizes (PackedWR 5 (PackedWR 4 (PackedWR 3 (PackedW 7))))
    = Returns 84148999.
Proof.
  rewrite (c_fieldSizes_four_fields
             (PackedWR 5 (PackedWR 4 (PackedWR 3 (PackedW 7))))).
  - reflexivity.
  - cbn. lia.
  - repeat constructor; lia.
Defined.

(** ** The round trip, where it holds *)

Lemma push_bits (b X v : Z) :
  0 <= X -> 0 <= v < 2 ^ X -> 0 <= b -> b * 2 ^ X < 2 ^ 64 ->
  Z.lor (Int.wrap_uint64 (Z.shiftl b X)) v = b * 2 ^ X + v.
Proof.
  intros HX Hv Hb Hlt.
  assert (Hp : 0 < 2 ^ X) by (apply Z.pow_pos_nonneg; lia).
  unfold Int.wrap_uint64.
  rewrite Z.shiftl_mul_pow2 by lia.
  rewrite Z.mod_small by nia.
  rewrite <- Z.add_lor_land.
  replace (Z.land (b * 2 ^ X) v) with 0; [lia |].
  symmetry. apply Z.bits_inj'. intros n Hn.
  rewrite Z.land_spec, Z.bits_0.
  destruct (Z_lt_le_dec n X) as [Hlo | Hhi].
  - rewrite Z.mul_pow2_bits_low by lia. reflexivity.
  - rewrite <- (Z.mod_small v (2 ^ X)) by lia.
    rewrite Z.mod_pow2_bits_high by lia. apply andb_false_r.
Qed.

Lemma pop_bits (b X v : Z) :
  0 <= X -> 0 <= v < 2 ^ X -> Z.shiftr (b * 2 ^ X + v) X = b.
Proof.
  intros HX Hv.
  assert (Hp : 0 < 2 ^ X) by (apply Z.pow_pos_nonneg; lia).
  rewrite Z.shiftr_div_pow2 by lia.
  rewrite Z.add_comm, Z.div_add by lia.
  rewrite Z.div_small by lia. lia.
Qed.

Lemma back_bits (b X v : Z) :
  0 <= X -> 0 <= v < 2 ^ X -> (b * 2 ^ X + v) mod 2 ^ X = v.
Proof.
  intros HX Hv.
  assert (Hp : 0 < 2 ^ X) by (apply Z.pow_pos_nonneg; lia).
  rewrite Z.add_comm, Z.mod_add by lia.
  apply Z.mod_small. lia.
Qed.

Lemma total_width_nonneg (stack : list (Z * Z)) :
  Forall maskable stack -> 0 <= total_width stack.
Proof.
  induction 1 as [| [X v] rest [HX _] _ IH]; cbn [total_width fst] in *; lia.
Qed.

Lemma bits_of_bound (stack : list (Z * Z)) :
  Forall maskable stack -> 0 <= bits_of stack < 2 ^ total_width stack.
Proof.
  induction 1 as [| [X v] rest [HX Hv] Hrest IH];
    cbn [bits_of total_width fst snd] in *.
  - change (2 ^ 0) with 1. lia.
  - pose proof (total_width_nonneg rest Hrest) as Ht.
    rewrite (Z.add_comm X), Z.pow_add_r by lia.
    assert (0 < 2 ^ X) by (apply Z.pow_pos_nonneg; lia).
    nia.
Qed.

(** One more push on the object that holds a stack gives the object that
    holds the longer stack. *)
Lemma Push_any_object_of (X v : Z) (stack : list (Z * Z)) :
  maskable (X, v) ->
  Forall maskable stack ->
  total_width stack + X <= 64 ->
  compiles (Push_any X v (object_of stack)) = true ->
  Push_any X v (object_of stack) = Returns (object_of ((X, v) :: stack)).
Proof.
  intros [HX Hv] Hst Hsum Hc. cbn [fst snd] in HX, Hv.
  pose proof (bits_of_bound stack Hst) as Hb.
  pose proof (total_width_nonneg stack Hst) as Ht.
  assert (Hfit : bits_of stack * 2 ^ X < 2 ^ 64).
  { assert (0 < 2 ^ X) by (apply Z.pow_pos_nonneg; lia).
    assert (2 ^ total_width stack * 2 ^ X <= 2 ^ 64).
    { rewrite <- Z.pow_add_r by lia. apply Z.pow_le_mono_r; lia. }
    nia. }
  destruct stack as [| [X1 v1] rest].
  - cbn [object_of Push_any] in *.
    unfold Packed_0_void.Push, Create, static_assert in *.
    destruct (X =? 0); [discriminate Hc |].
    cbn. reflexivity.
  - destruct rest as [| f2 rest'].
    + cbn [object_of schema_of Push_any] in *.
      rewrite Packed_W_void_Push_value by lia.
      cbn [bind fst m_fields].
      rewrite push_bits by lia. reflexivity.
    + cbn [object_of] in *.
      change (schema_of ((X1, v1) :: f2 :: rest'))
        with (PackedWR X1 (schema_of (f2 :: rest'))) in *.
      cbn [Push_any] in *.
      assert (Hc' : compiles
                      (Packed_W_REST.Push X1 (schema_of (f2 :: rest')) X v
                         {| m_fields := bits_of ((X1, v1) :: f2 :: rest') |})
                    = true).
      { apply compiles_bind in Hc. exact Hc. }
      rewrite Packed_W_REST_Push_value by (lia || exact Hc').
      cbn [bind fst m_fields].
      rewrite push_bits by lia. reflexivity.
Qed.

Lemma Push_all_object_of (fields stack : list (Z * Z)) :
  Forall maskable fields ->
  Forall maskable stack ->
  total_width fields + total_width stack <= 64 ->
  compiles (Push_all fields (object_of stack)) = true ->
  Push_all fields (object_of stack) = Returns (object_of (rev fields ++ stack)).
Proof.
  revert stack.
  induction fields as [| [X v] rest IH]; intros stack Hf Hst Hsum Hc.
  - reflexivity.
  - apply Forall_cons_iff in Hf. destruct Hf as [Hxv Hrest].
    pose proof (total_width_nonneg rest Hrest) as Ht.
    cbn [total_width] in Hsum. cbn [Push_all] in Hc |- *.
    pose proof (compiles_bind _ _ Hc) as Hc1.
    rewrite Push_any_object_of in Hc |- * by (assumption || lia).
    cbn [bind] in Hc |- *.
    rewrite IH.
    + cbn [rev]. rewrite <- app_assoc. reflexivity.
    + exact Hrest.
    + apply Forall_cons; assumption.
    + cbn [total_width]. lia.
    + exact Hc.
Qed.

Lemma unpack_more (n : nat) (c : chain) :
  unpack (S (S n)) c
    = (b <- Back_any c ;;
       c' <- Pop_any c ;;
       bs <- unpack (S n) c' ;;
       Returns (b :: bs)).
Proof. reflexivity. Qed.

(** Reading a stack back: [Back()], [Pop()], [Back()], ... *)
Lemma unpack_object_of (stack : list (Z * Z)) :
  Forall maskable stack ->
  unpack (length stack) (object_of stack) = Returns (map snd stack).
Proof.
  induction 1 as [| [X v] rest [HX Hv] Hrest IH]; [reflexivity |].
  cbn [fst snd] in HX, Hv.
  destruct rest as [| f2 rest'].
  - cbn [length unpack object_of schema_of Back_any].
    rewrite Packed_W_void_Back_low by lia.
    cbn [bind fst m_fields bits_of map snd].
    rewrite back_bits by lia. reflexivity.
  - cbn [length] in IH |- *. rewrite unpack_more.
    unfold object_of at 1 2.
    change (schema_of ((X, v) :: f2 :: rest'))
      with (PackedWR X (schema_of (f2 :: rest'))).
    change (bits_of ((X, v) :: f2 :: rest'))
      with (bits_of (f2 :: rest') * 2 ^ X + v).
    cbn [Back_any Pop_any].
    rewrite Packed_W_REST_Back_low by lia.
    cbn [bind fst m_fields].
    rewrite back_bits by lia.
    assert (Hd : declares_Create (schema_of (f2 :: rest')) = true).
    { destruct f2 as [X2 v2]. destruct rest'; reflexivity. }
    unfold Packed_W_REST.Pop, Create, static_assert, Int.shr_uint64.
    rewrite Hd, in_range_true by lia.
    cbn [bind fst m_fields]. rewrite pop_bits by lia.
    change (Object (schema_of (f2 :: rest'))
              {| m_fields := bits_of (f2 :: rest') |})
      with (object_of (f2 :: rest')).
    rewrite IH. reflexivity.
Qed.

(** Pushing fields of widths up to 31, each value within its width, all
    widths summing to at most 64, through calls that compile, and reading
    them back with [Back] and [Pop] gives the values, last pushed first. *)
Theorem pack_unpack_round_trip (fields : list (Z * Z)) :
  Forall maskable fields ->
  total_width fields <= 64 ->
  compiles (pack fields) = true ->
  exists c,
    pack fields = Returns c /\
    type_of c = schema_of (rev fields) /\
    unpack (length fields) c = Returns (rev (map snd fields)).
Proof.
  intros Hf Hsum Hc.
  exists (object_of (rev fields)).
  assert (Hp : pack fields = Returns (object_of (rev fields))).
  { unfold pack in *. change Nothing with (object_of []) in *.
    rewrite Push_all_object_of; try assumption.
    - rewrite app_nil_r. reflexivity.
    - constructor.
    - cbn [total_width]. lia. }
  split; [exact Hp | split].
  - destruct (rev fields); reflexivity.
  - rewrite <- length_rev, <- map_rev.
    apply unpack_object_of. apply Forall_rev. exact Hf.
Qed.

(** The scenario of the specification: 5 in three bits, then 9 in four. *)
Lemma pack_unpack_round_trip_witness :
  exists c,
    pack [(3, 5); (4, 9)] = Returns c /\
    type_of c = PackedWR 4 (PackedW 3) /\
    unpack 2 c = Returns [9; 5].
Proof.
  apply (pack_unpack_round_trip [(3, 5); (4, 9)]).
  - repeat constructor; cbn; lia.
  - cbn. lia.
  - reflexivity.
Defined.




(** C2, at two failing inputs. A 4-bit field holding 5 and a 40-bit field
    holding [2^39] (44 bits in all) are pushed and packed as
    [(5 << 40) | 2^39], but the first [Back()] shifts the [int] 1 by 40 and
    has no defined result, where the values [2^39] and 5 are to be read
    back. Three 10-bit fields (30 bits in all) cannot be pushed at all: the
    third [Push<10>] fails the static assertion. *)
Theorem round_trip_wide_fields :
  (exists c,
      pack [(4, 5); (40, 549755813888)] = Returns c /\
      c = Object (PackedWR 40 (PackedW 4)) {| m_fields := 6047313952768 |} /\
      unpack 2 c = Undefined) /\
  (exists c,
      pack [(10, 1); (10, 2)] = Returns c /\
      Push_any 10 3 c = IllFormed).
Proof.
  split.
  - eexists. split; [reflexivity |]. split; reflexivity.
  - eexists. split; reflexivity.
Qed.

(** * Further properties of the header *)

(** ** [Back] on any object *)

(** [Back()] is defined exactly for the widths below 32, in both classes
    that have it: there it returns the low [W] bits of the raw bits, a value
    below [2^W], and leaves the object alone; from 32 up it has no defined
    result, whatever the object holds. *)
Theorem Back_defined_below_32 (W : Z) :
  0 <= W ->
  (forall (REST : Schema) (this : Packed (PackedWR W REST)),
      (W < 32 ->
       Packed_W_REST.Back W REST this
         = Returns (m_fields this mod 2 ^ W, this) /\
       0 <= m_fields this mod 2 ^ W < 2 ^ W) /\
      (32 <= W -> Packed_W_REST.Back W REST this = Undefined)) /\
  (forall this : Packed (PackedW W),
      (W < 32 ->
       Packed_W_void.Back W this
         = Returns (m_fields this mod 2 ^ W, this) /\
       0 <= m_fields this mod 2 ^ W < 2 ^ W) /\
      (32 <= W -> Packed_W_void.Back W this = Undefined)).
Proof.
  intros HW.
  assert (Hp : 0 < 2 ^ W) by (apply Z.pow_pos_nonneg; lia).
  split; intros; (split; [intros Hlt | intros Hge]).
  - split; [apply Packed_W_REST_Back_low; lia | apply Z.mod_pos_bound; lia].
  - apply Packed_W_REST_Back_wide. exact Hge.
  - split; [apply Packed_W_void_Back_low; lia | apply Z.mod_pos_bound; lia].
  - apply Packed_W_void_Back_wide. exact Hge.
Qed.

(** [Packed<4, Packed<3>>::Create(0x1234).Back()] is [4], the low four
    bits. *)
Lemma Back_defined_below_32_witness :
  Packed_W_REST.Back 4 (PackedW 3) {| m_fields := 4660 |}
    = Returns (4, {| m_fields := 4660 |}).
Proof.
  destruct (Back_defined_below_32 4) as [H _]; [lia |].
  destruct (H (PackedW 3) {| m_fields := 4660 |}) as [Hlow _].
  destruct Hlow as [Hb _]; [lia |].
  exact Hb.
Defined.

(** ** [Pop] after [Push] *)

Lemma shiftr_wrap_shiftl (b X : Z) :
  0 <= X <= 64 ->
  Z.shiftr (Int.wrap_uint64 (Z.shiftl b X)) X = b mod 2 ^ (64 - X).
Proof.
  intros HX. apply Z.bits_inj'. intros n Hn.
  unfold Int.wrap_uint64.
  rewrite Z.shiftr_spec, !Z.testbit_mod_pow2, Z.shiftl_spec by lia.
  replace (n + X - X) with n by lia.
  f_equal.
  destruct (Z.ltb_spec (n + X) 64), (Z.ltb_spec n (64 - X));
    try reflexivity; lia.
Qed.

Lemma Push_Pop_bits (b X v : Z) :
  0 <= X <= 64 ->
  Z.shiftr (Z.lor (Int.wrap_uint64 (Z.shiftl b X)) v) X
    = Z.lor (b mod 2 ^ (64 - X)) (Z.shiftr v X).
Proof.
  intros HX. rewrite Z.shiftr_lor, shiftr_wrap_shiftl by exact HX.
  reflexivity.
Qed.

(** What a push on an object of a class with fields returns, when it
    compiles and the width is below 64. *)
Lemma Push_any_Object (s : Schema) (this : Packed s) (X v : Z) :
  s <> Packed0 ->
  0 <= X < 64 ->
  compiles (Push_any X v (Object s this)) = true ->
  Push_any X v (Object s this)
    = Returns (Object (PackedWR X s)
                 {| m_fields :=
                     Z.lor (Int.wrap_uint64 (Z.shiftl (m_fields this) X)) v |}).
Proof.
  intros Hs HX Hc.
  destruct s as [| W | W REST]; [contradiction | |]; cbn [Push_any] in *.
  - rewrite Packed_W_void_Push_value by exact HX. reflexivity.
  - apply compiles_bind in Hc.
    rewrite Packed_W_REST_Push_value by assumption. reflexivity.
Qed.

Lemma Pop_any_Object (X : Z) (s : Schema) (q : Packed (PackedWR X s)) :
  s <> Packed0 ->
  0 <= X < 64 ->
  Pop_any (Object (PackedWR X s) q)
    = Returns (Object s {| m_fields := Z.shiftr (m_fields q) X |}).
Proof.
  intros Hs HX. cbn [Pop_any].
  unfold Packed_W_REST.Pop, Create, static_assert, Int.shr_uint64.
  assert (Hd : declares_Create s = true)
    by (destruct s; [contradiction | reflexivity | reflexivity]).
  rewrite Hd, in_range_true by lia. reflexivity.
Qed.

(** [p.Push<X>(v).Pop()], for a width below 64 on any object: the result is
    of the class of [p]; its raw bits are those of [p] without their top [X]
    bits, with the bits of [v] from bit [X] up or-ed in. A value that does
    not fit its width and fields that fill more than 64 bits both show
    here. *)
Theorem Push_then_Pop (s : Schema) (this : Packed s) (X v : Z) :
  s <> Packed0 ->
  0 <= X < 64 ->
  compiles (Push_any X v (Object s this)) = true ->
  exists c,
    Push_any X v (Object s this) = Returns c /\
    Pop_any c
      = Returns (Object s
                   {| m_fields :=
                       Z.lor (m_fields this mod 2 ^ (64 - X))
                             (Z.shiftr v X) |}).
Proof.
  intros Hs HX Hc.
  eexists. split; [apply Push_any_Object; assumption |].
  rewrite Pop_any_Object by assumption. cbn [m_fields].
  rewrite Push_Pop_bits by lia. reflexivity.
Qed.

(** On [Packed<3>] holding 5, [Push<4>(255).Pop()] holds
    [5 | (255 >> 4) = 15]: the oversized 255 has spilt into the field
    beneath. *)
Lemma Push_then_Pop_witness :
  exists c,
    Push_any 4 255 (Object (PackedW 3) {| m_fields := 5 |}) = Returns c /\
    Pop_any c = Returns (Object (PackedW 3) {| m_fields := 15 |}).
Proof.
  apply (Push_then_Pop (PackedW 3) {| m_fields := 5 |} 4 255).
  - discriminate.
  - lia.
  - reflexivity.
Defined.

(** [Pop] undoes [Push]: when the pushed value fits its width and the
    object's bits leave [X] bits free at the top, [p.Push<X>(v).Pop()] is
    [p] again. *)
Theorem Pop_undoes_Push (s : Schema) (this : Packed s) (X v : Z) :
  s <> Packed0 ->
  0 <= X < 64 ->
  0 <= v < 2 ^ X ->
  0 <= m_fields this < 2 ^ (64 - X) ->
  compiles (Push_any X v (Object s this)) = true ->
  exists c,
    Push_any X v (Object s this) = Returns c /\
    Pop_any c = Returns (Object s this).
Proof.
  intros Hs HX Hv Hb Hc.
  eexists. split; [apply Push_any_Object; assumption |].
  rewrite Pop_any_Object by assumption. cbn [m_fields].
  rewrite Push_Pop_bits by lia.
  rewrite Z.mod_small by exact Hb.
  rewrite Z.shiftr_div_pow2, Z.div_small, Z.lor_0_r by lia.
  destruct this. reflexivity.
Qed.

(** A 40-bit field on top of a 20-bit one: wide fields pop back intact. *)
Lemma Pop_undoes_Push_witness :
  exists c,
    Push_any 40 549755813888 (Object (PackedW 20) {| m_fields := 1000000 |})
      = Returns c /\
    Pop_any c = Returns (Object (PackedW 20) {| m_fields := 1000000 |}).
Proof.
  apply (Pop_undoes_Push (PackedW 20) {| m_fields := 1000000 |}
           40 549755813888).
  - discriminate.
  - lia.
  - lia.
  - cbn [m_fields]. lia.
  - reflexivity.
Defined.

(** ** The raw bits stay a 64-bit value *)

Lemma wrap_uint64_range (z : Z) : 0 <= Int.wrap_uint64 z < 2 ^ 64.
Proof. unfold Int.wrap_uint64. apply Z.mod_pos_bound. lia. Qed.

(** Neither [Push] nor [Pop] can leave the 64 bits of [m_fields]: a push of
    a 64-bit value returns an object whose raw bits are a 64-bit value,
    whatever the object it is called on holds, and a pop of an object with
    64-bit raw bits returns one with at most [64 - W] bits. *)
Theorem raw_bits_stay_64_bit :
  (forall (X v : Z) (c c' : chain),
      0 <= v < 2 ^ 64 ->
      Push_any X v c = Returns c' ->
      0 <= raw_bits c' < 2 ^ 64) /\
  (forall (W : Z) (REST : Schema) (this : Packed (PackedWR W REST)) (c' : chain),
      0 <= m_fields this < 2 ^ 64 ->
      Pop_any (Object (PackedWR W REST) this) = Returns c' ->
      0 <= raw_bits c' < 2 ^ (64 - W) /\ 0 <= raw_bits c' < 2 ^ 64).
Proof.
  split.
  - intros X v c c' Hv H.
    destruct c as [| [| W | W REST] this]; cbn [Push_any] in H;
      apply bind_Returns in H; destruct H as (q & Hq & H);
      injection H as <-; cbn [raw_bits].
    + unfold Packed_0_void.Push, Create in Hq.
      repeat (apply bind_Returns in Hq; destruct Hq as (? & _ & Hq)).
      injection Hq as <-. exact Hv.
    + unfold Packed_0_void.Push, Create in Hq.
      repeat (apply bind_Returns in Hq; destruct Hq as (? & _ & Hq)).
      injection Hq as <-. exact Hv.
    + destruct q as [q this'].
      unfold Packed_W_void.Push, Create, Int.shl_uint64 in Hq.
      destruct (Int.in_range 64 X); [| discriminate Hq].
      injection Hq as <- _. cbn [fst m_fields].
      rewrite lor_wrap_uint64 by exact Hv. apply wrap_uint64_range.
    + destruct q as [q this'].
      unfold Packed_W_REST.Push, Create, Int.shl_uint64, static_assert in Hq.
      destruct (Int.wrap_unsigned (X + c_fieldCount REST) <=? 8);
        [| discriminate Hq].
      destruct (Int.in_range 64 X); [| discriminate Hq].
      injection Hq as <- _. cbn [fst m_fields].
      rewrite lor_wrap_uint64 by exact Hv. apply wrap_uint64_range.
  - intros W REST this c' Hb H. cbn [Pop_any] in H.
    apply bind_Returns in H. destruct H as ([r this'] & Hr & H).
    injection H as <-. cbn [raw_bits fst].
    unfold Packed_W_REST.Pop, Create, Int.shr_uint64, static_assert in Hr.
    destruct (declares_Create REST); [| discriminate Hr].
    cbn [bind] in Hr.
    destruct (Int.in_range 64 W) eqn:HW; [| discriminate Hr].
    injection Hr as <- _. cbn [m_fields].
    unfold Int.in_range in HW. apply andb_prop in HW.
    destruct HW as [H0 H64]. apply Z.leb_le in H0. apply Z.ltb_lt in H64.
    rewrite Z.shiftr_div_pow2 by exact H0.
    assert (Hp : 0 < 2 ^ W) by (apply Z.pow_pos_nonneg; lia).
    assert (Hq : 2 ^ 64 = 2 ^ (64 - W) * 2 ^ W).
    { rewrite <- Z.pow_add_r by lia. f_equal. lia. }
    assert (Hle : 2 ^ (64 - W) <= 2 ^ 64) by (apply Z.pow_le_mono_r; lia).
    assert (Hd : 0 <= m_fields this / 2 ^ W < 2 ^ (64 - W)).
    { split; [apply Z.div_pos; lia |].
      apply Z.div_lt_upper_bound; [lia |]. rewrite Z.mul_comm, <- Hq. lia. }
    lia.
Qed.

(** Pushing [2^64 - 1] in four bits onto [Packed<3>] holding 5 gives raw
    bits that are still a 64-bit value. *)
Lemma raw_bits_stay_64_bit_witness :
  0 <= raw_bits
         (Object (PackedWR 4 (PackedW 3))
            {| m_fields := 18446744073709551615 |}) < 2 ^ 64.
Proof.
  destruct raw_bits_stay_64_bit as [H _].
  apply (H 4 18446744073709551615
           (Object (PackedW 3) {| m_fields := 5 |})).
  - lia.
  - reflexivity.
Defined.

(** ** The schema follows the calls *)

Lemma widths_nil (s : Schema) : widths s = [] -> s = Packed0.
Proof. destruct s; [reflexivity | discriminate | discriminate]. Qed.

Lemma Push_any_widths (X v : Z) (c c' : chain) :
  Push_any X v c = Returns c' ->
  widths (type_of c') = X :: widths (type_of c).
Proof.
  destruct c as [| [| W | W REST] this]; cbn [Push_any]; intros H;
    apply bind_Returns in H; destruct H as (r & _ & H);
    injection H as <-; reflexivity.
Qed.

(** The class of a chain of pushes that returns lists the pushed widths,
    most recently pushed first: the layout is in the type. *)
Theorem pack_widths (fields : list (Z * Z)) (c : chain) :
  pack fields = Returns c ->
  widths (type_of c) = rev (map fst fields).
Proof.
  unfold pack.
  assert (H : forall c0 c1,
             Push_all fields c0 = Returns c1 ->
             widths (type_of c1)
               = rev (map fst fields) ++ widths (type_of c0)).
  { induction fields as [| [X v] rest IH]; intros c0 c1 H.
    - injection H as <-. reflexivity.
    - cbn [Push_all] in H. apply bind_Returns in H.
      destruct H as (c' & H1 & H).
      rewrite (IH _ _ H), (Push_any_widths _ _ _ _ H1).
      cbn [map rev fst]. rewrite <- app_assoc. reflexivity. }
  intros Hp. rewrite (H _ _ Hp). cbn [type_of widths].
  apply app_nil_r.
Qed.

(** Pushing 5 in three bits, then 9 in four: the class lists 4, then 3. *)
Lemma pack_widths_witness :
  widths (PackedWR 4 (PackedW 3)) = [4; 3].
Proof.
  apply (pack_widths [(3, 5); (4, 9)]
           (Object (PackedWR 4 (PackedW 3)) {| m_fields := 89 |})).
  reflexivity.
Defined.

(** [Pop()] compiles exactly on the classes of two or more fields: the
    one-field class [Packed<W, void>] declares no [Pop], and on
    [Packed<W, Packed<>>] the call [REST::Create] names nothing. A pop that
    returns drops the first width of the class. So an object of [n] fields
    can be popped [n - 1] times, not [n]. *)
Theorem Pop_needs_two_fields (c : chain) :
  compiles (Pop_any c) = (2 <=? length (widths (type_of c)))%nat /\
  (forall c', Pop_any c = Returns c' ->
              widths (type_of c') = tl (widths (type_of c))).
Proof.
  split.
  - destruct c as [| [| W | W REST] this]; try reflexivity.
    cbn [Pop_any type_of widths length].
    unfold Packed_W_REST.Pop, Create, static_assert, Int.shr_uint64.
    destruct REST as [| W' | W' REST']; try reflexivity;
      cbn [declares_Create bind widths length Nat.leb];
      destruct (Int.in_range 64 W); reflexivity.
  - intros c' H.
    destruct c as [| [| W | W REST] this]; try discriminate H.
    cbn [Pop_any] in H. apply bind_Returns in H.
    destruct H as (r & _ & H). injection H as <-. reflexivity.
Qed.

(** At [Packed<1, Packed<1>>] the call [Pop()] compiles and leaves the
    one-field class, on which it compiles no more. *)
Lemma Pop_needs_two_fields_witness :
  compiles (Pop_any (Object (PackedWR 1 (PackedW 1)) {| m_fields := 3 |}))
    = true /\
  compiles (Pop_any (Object (PackedW 1) {| m_fields := 1 |})) = false.
Proof.
  split.
  - rewrite (proj1 (Pop_needs_two_fields _)). reflexivity.
  - rewrite (proj1 (Pop_needs_two_fields _)). reflexivity.
Defined.

(** ** How many fields the static assertion lets through *)

Lemma Push_any_defined (X v : Z) (c : chain) :
  0 <= X < 64 ->
  compiles (Push_any X v c) = true ->
  exists c', Push_any X v c = Returns c'.
Proof.
  intros HX Hc.
  assert (Hempty : compiles (r <- Packed_0_void.Push X v ;;
                             Returns (Object (PackedW X) r)) = true ->
                   exists c', (r <- Packed_0_void.Push X v ;;
                               Returns (Object (PackedW X) r)) = Returns c').
  { unfold Packed_0_void.Push, Create, static_assert.
    destruct (X =? 0); cbn; [discriminate | eauto]. }
  destruct c as [| s this]; [exact (Hempty Hc) |].
  destruct (widths s) eqn:Hw.
  - apply widths_nil in Hw. subst s. exact (Hempty Hc).
  - eexists. apply Push_any_Object; [| assumption | assumption].
    intros ->. discriminate Hw.
Qed.

Lemma Push_any_room (X v : Z) (c c' : chain) :
  1 <= X <= 63 ->
  (length (widths (type_of c)) <= 9)%nat ->
  Push_any X v c = Returns c' ->
  (length (widths (type_of c)) <= 8)%nat.
Proof.
  intros HX Hlen H.
  destruct c as [| [| W | W REST] this]; cbn [type_of widths length] in *;
    try lia.
  cbn [Push_any] in H. apply bind_Returns in H.
  destruct H as (r & Hr & _).
  unfold Packed_W_REST.Push, static_assert in Hr.
  destruct (Z.leb_spec (Int.wrap_unsigned (X + c_fieldCount REST)) 8)
    as [Hle | Hgt]; [| discriminate Hr].
  rewrite c_fieldCount_length in Hle. unfold Int.wrap_unsigned in Hle.
  rewrite (Z.mod_small (Z.of_nat _)) in Hle by lia.
  rewrite Z.mod_small in Hle by lia.
  lia.
Qed.

Lemma Push_all_room (fields : list (Z * Z)) (c : chain) :
  Forall (fun f => 1 <= fst f <= 63) fields ->
  (length (widths (type_of c)) <= 9)%nat ->
  compiles (Push_all fields c) = true ->
  (length (widths (type_of c)) + length fields <= 9)%nat.
Proof.
  revert c. induction fields as [| [X v] rest IH]; intros c Hf Hlen Hc.
  - cbn [length]. lia.
  - apply Forall_cons_iff in Hf. destruct Hf as [HX Hrest].
    cbn [fst] in HX. cbn [Push_all] in Hc.
    destruct (Push_any_defined X v c) as (c' & Hp);
      [lia | exact (compiles_bind _ _ Hc) |].
    rewrite Hp in Hc. cbn [bind] in Hc.
    pose proof (Push_any_room X v c c' HX Hlen Hp) as Hroom.
    pose proof (Push_any_widths X v c c' Hp) as Hw.
    assert (Hlen' : (length (widths (type_of c')) <= 9)%nat)
      by (rewrite Hw; cbn [length]; lia).
    specialize (IH c' Hrest Hlen' Hc).
    rewrite Hw in IH. cbn [length] in IH |- *. lia.
Qed.

(** A chain of pushes of fields one to 63 bits wide, from the empty class,
    compiles only if it has at most nine fields: the assertion of [Push]
    lets a ninth field through (one bit wide) and no tenth. *)
Theorem at_most_nine_fields (fields : list (Z * Z)) :
  Forall (fun f => 1 <= fst f <= 63) fields ->
  compiles (pack fields) = true ->
  (length fields <= 9)%nat.
Proof.
  intros Hf Hc.
  apply (Push_all_room fields Nothing Hf); [cbn; lia | exact Hc].
Qed.

(** Nine one-bit fields compile. *)
Lemma at_most_nine_fields_witness :
  (length [(1, 0); (1, 0); (1, 0); (1, 0); (1, 0);
           (1, 0); (1, 0); (1, 0); (1, 0)] <= 9)%nat.
Proof.
  apply (at_most_nine_fields
           [(1, 0); (1, 0); (1, 0); (1, 0); (1, 0);
            (1, 0); (1, 0); (1, 0); (1, 0)]).
  - repeat constructor; cbn; lia.
  - reflexivity.
Defined.

(** ** Decoding a raw word *)

Lemma unpack_raw_object (s : Schema) :
  s <> Packed0 ->
  Forall (fun w => 0 <= w <= 31) (widths s) ->
  forall x : Z,
    unpack (length (widths s)) (Object s {| m_fields := x |})
      = Returns (slices x (widths s)).
Proof.
  induction s as [| W | W REST IH]; intros Hs Hw x; [contradiction | |].
  - apply Forall_cons_iff in Hw. destruct Hw as [HW _].
    cbn [widths length unpack Back_any slices].
    rewrite Packed_W_void_Back_low by lia. reflexivity.
  - cbn [widths] in Hw |- *.
    apply Forall_cons_iff in Hw. destruct Hw as [HW Hrest].
    destruct (widths REST) as [| W' ws] eqn:Hws.
    + cbn [length unpack Back_any slices].
      rewrite Packed_W_REST_Back_low by lia. reflexivity.
    + assert (HR : REST <> Packed0) by (intros ->; discriminate Hws).
      specialize (IH HR Hrest (Z.shiftr x W)).
      cbn [length] in IH |- *. rewrite unpack_more.
      cbn [Back_any]. rewrite Packed_W_REST_Back_low by lia.
      cbn [bind fst m_fields].
      rewrite Pop_any_Object by (assumption || lia).
      cbn [bind m_fields]. rewrite IH. reflexivity.
Qed.

(** A raw 64-bit word wrapped by [Create] is decoded by [Back()],
    [Pop().Back()], ... into its bit slices: for a class whose widths are all
    at most 31, the first value read is the low [W1] bits of the word, the
    next the [W2] bits above them, and so on, whatever the word is. *)
Theorem unpack_raw_word (s : Schema) (x : Z) :
  s <> Packed0 ->
  Forall (fun w => 0 <= w <= 31) (widths s) ->
  exists p,
    Create s x = Returns p /\
    unpack (length (widths s)) (Object s p) = Returns (slices x (widths s)).
Proof.
  intros Hs Hw. exists {| m_fields := x |}. split.
  - unfold Create, static_assert.
    destruct s; [contradiction | reflexivity | reflexivity].
  - apply unpack_raw_object; assumption.
Qed.

(** [0x1234] read as [Packed<4, Packed<8, Packed<4>>>]: 4, then 0x23, then
    1. *)
Lemma unpack_raw_word_witness :
  exists p,
    Create (PackedWR 4 (PackedWR 8 (PackedW 4))) 4660 = Returns p /\
    unpack 3 (Object (PackedWR 4 (PackedWR 8 (PackedW 4))) p)
      = Returns [4; 35; 1].
Proof.
  apply (unpack_raw_word (PackedWR 4 (PackedWR 8 (PackedW 4))) 4660).
  - discriminate.
  - repeat constructor; lia.
Defined.

(** ** The bytes of the descriptor *)

Lemma byte_of_div (d : Z) (k : nat) :
  byte_of d k = (d / 2 ^ (8 * Z.of_nat k)) mod 2 ^ 8.
Proof.
  unfold byte_of. change 255 with (Z.ones 8).
  rewrite Z.land_ones, Z.shiftr_div_pow2 by lia. reflexivity.
Qed.

(** A width placed above [n] bytes: it is byte [n], and the bytes below are
    those of the rest. *)
Lemma byte_of_top (W lo : Z) (n : nat) :
  0 <= W < 2 ^ 8 ->
  0 <= lo < 2 ^ (8 * Z.of_nat n) ->
  byte_of (W * 2 ^ (8 * Z.of_nat n) + lo) n = W.
Proof.
  intros HW Hlo. rewrite byte_of_div.
  rewrite <- Z.shiftr_div_pow2, pop_bits by lia.
  apply Z.mod_small. exact HW.
Qed.

Lemma byte_of_below (W lo : Z) (n k : nat) :
  (k < n)%nat ->
  byte_of (W * 2 ^ (8 * Z.of_nat n) + lo) k = byte_of lo k.
Proof.
  intros Hk. rewrite !byte_of_div.
  set (a := 8 * Z.of_nat k).
  set (m := 8 * Z.of_nat n - a - 8).
  assert (Ha : 0 <= a) by lia.
  assert (Hm : 0 <= m) by lia.
  replace (8 * Z.of_nat n) with (m + 8 + a) by lia.
  rewrite !Z.pow_add_r by lia.
  assert (Hpa : 0 < 2 ^ a) by (apply Z.pow_pos_nonneg; lia).
  replace (W * (2 ^ m * 2 ^ 8 * 2 ^ a) + lo)
    with (W * 2 ^ m * 2 ^ 8 * 2 ^ a + lo) by ring.
  rewrite Z.add_comm, Z.div_add by lia.
  rewrite Z.mod_add by lia. reflexivity.
Qed.

Lemma c_fieldSizes_bytes_bounded (s : Schema) :
  (length (widths s) <= 4)%nat ->
  Forall (fun W => 0 <= W < 2 ^ 8) (widths s) ->
  exists d,
    c_fieldSizes s = Returns d /\
    0 <= d < 2 ^ (8 * Z.of_nat (length (widths s))) /\
    forall k, (k < length (widths s))%nat ->
              byte_of d k = nth k (rev (widths s)) 0.
Proof.
  induction s as [| W | W REST IH]; intros Hlen Hw.
  - exists 0. split; [reflexivity |]. split; [cbn; lia |].
    intros k Hk. cbn in Hk. lia.
  - apply Forall_cons_iff in Hw. destruct Hw as [HW _].
    exists W. split; [reflexivity |]. split; [exact HW |].
    intros k Hk. cbn [widths length] in Hk.
    assert (k = 0%nat) as -> by lia.
    rewrite byte_of_div. cbn [widths rev app nth].
    change (2 ^ (8 * Z.of_nat 0)) with 1. rewrite Z.div_1_r.
    apply Z.mod_small. exact HW.
  - cbn [widths length] in Hlen. cbn [widths] in Hw.
    apply Forall_cons_iff in Hw. destruct Hw as [HW Hrest].
    destruct IH as (lo & Hlo & Hbound & Hbytes); [lia | exact Hrest |].
    set (n := length (widths REST)) in *.
    assert (Hn : c_fieldCount REST = Z.of_nat n).
    { rewrite c_fieldCount_length. apply Z.mod_small. lia. }
    assert (Hpow : 0 < 2 ^ (8 * Z.of_nat n) <= 2 ^ 24).
    { split; [apply Z.pow_pos_nonneg | apply Z.pow_le_mono_r]; lia. }
    assert (Hslot : 0 <= W * 2 ^ (8 * Z.of_nat n) < 2 ^ 32).
    { change (2 ^ 32) with (2 ^ 8 * 2 ^ 24). nia. }
    exists (W * 2 ^ (8 * Z.of_nat n) + lo).
    split; [| split].
    + cbn [c_fieldSizes]. rewrite Hlo, Hn.
      unfold Int.shl_unsigned, Int.wrap_unsigned.
      rewrite (Z.mod_small (Z.of_nat n * 8)) by lia.
      rewrite in_range_true by lia. cbn [bind].
      rewrite Z.shiftl_mul_pow2 by lia.
      replace (Z.of_nat n * 8) with (8 * Z.of_nat n) by lia.
      rewrite Z.mod_small by exact Hslot.
      rewrite <- (push_bits W (8 * Z.of_nat n) lo) by lia.
      unfold Int.wrap_uint64.
      rewrite Z.shiftl_mul_pow2, Z.mod_small by lia. reflexivity.
    + cbn [widths length]. fold n.
      replace (8 * Z.of_nat (S n)) with (8 + 8 * Z.of_nat n) by lia.
      rewrite Z.pow_add_r by lia. nia.
    + intros k Hk. cbn [widths length rev] in Hk |- *. fold n in Hk.
      destruct (Nat.eq_dec k n) as [-> | Hne].
      * rewrite byte_of_top by assumption.
        rewrite app_nth2 by (rewrite length_rev; fold n; lia).
        rewrite length_rev. fold n. rewrite Nat.sub_diag. reflexivity.
      * rewrite byte_of_below by lia.
        rewrite app_nth1 by (rewrite length_rev; fold n; lia).
        apply Hbytes. lia.
Qed.

(** The descriptor can be read back byte by byte: for a class of at most
    four fields, all widths below 256, [c_fieldSizes] is defined and its
    byte [k] is the width of the field pushed [k]-th (counting from 0, the
    first pushed in the least significant byte); the bytes above the field
    count are zero. *)
Theorem c_fieldSizes_bytes (s : Schema) :
  (length (widths s) <= 4)%nat ->
  Forall (fun W => 0 <= W < 2 ^ 8) (widths s) ->
  exists d,
    c_fieldSizes s = Returns d /\
    (forall k, (k < length (widths s))%nat ->
               byte_of d k = nth k (rev (widths s)) 0) /\
    (forall k, (length (widths s) <= k)%nat -> byte_of d k = 0).
Proof.
  intros Hlen Hw.
  destruct (c_fieldSizes_bytes_bounded s Hlen Hw) as (d & Hd & Hb & Hk).
  exists d. split; [exact Hd | split; [exact Hk |]].
  intros k Hge. rewrite byte_of_div.
  assert (Hle : 2 ^ (8 * Z.of_nat (length (widths s)))
                <= 2 ^ (8 * Z.of_nat k))
    by (apply Z.pow_le_mono_r; lia).
  rewrite Z.div_small by lia. reflexivity.
Qed.

(** [Packed<5, Packed<4, Packed<3, Packed<7>>>>]: byte 0 is 7, the width
    pushed first, and byte 3 is 5, the width pushed last. *)
Lemma c_fieldSizes_bytes_witness :
  exists d,
    c_fieldSizes (PackedWR 5 (PackedWR 4 (PackedWR 3 (PackedW 7))))
      = Returns d /\
    byte_of d 0 = 7 /\ byte_of d 3 = 5 /\ byte_of d 4 = 0.
Proof.
  destruct (c_fieldSizes_bytes
              (PackedWR 5 (PackedWR 4 (PackedWR 3 (PackedW 7)))))
    as (d & Hd & Hk & Hz).
  - cbn. lia.
  - repeat constructor; lia.
  - exists d. split; [exact Hd |].
    split; [| split].
    + apply (Hk 0%nat). cbn. lia.
    + apply (Hk 3%nat). cbn. lia.
    + apply (Hz 4%nat). cbn. lia.
Defined.

(** From five fields on the descriptor is lost: for every class of five or
    more fields (fewer than [2^29]) the width of the last pushed field is
    shifted by 32 or more as a 32-bit [unsigned], and [c_fieldSizes] has no
    defined value, whatever the widths. *)
Theorem c_fieldSizes_undefined_from_five (s : Schema) :
  5 <= Z.of_nat (length (widths s)) < 2 ^ 29 ->
  c_fieldSizes s = Undefined.
Proof.
  intros Hlen.
  destruct s as [| W | W REST]; cbn [widths length] in Hlen; try lia.
  cbn [c_fieldSizes].
  rewrite c_fieldCount_length.
  unfold Int.shl_unsigned, Int.wrap_unsigned.
  change (2 ^ 29) with 536870912 in Hlen.
  change (2 ^ 32) with 4294967296.
  rewrite (Z.mod_small (Z.of_nat _)) by lia.
  rewrite Z.mod_small by lia.
  rewrite in_range_false by lia. reflexivity.
Qed.

(** Six fields of any widths. *)
Lemma c_fieldSizes_undefined_from_five_witness :
  c_fieldSizes
    (PackedWR 2 (PackedWR 3 (PackedWR 1 (PackedWR 4 (PackedWR 1 (PackedW 5))))))
    = Undefined.
Proof.
  apply c_fieldSizes_undefined_from_five. cbn. lia.
Defined.

(** ** The layout of the packed word *)

Lemma total_width_rev (fields : list (Z * Z)) :
  total_width (rev fields) = total_width fields.
Proof.
  assert (Happ : forall l1 l2,
             total_width (l1 ++ l2) = total_width l1 + total_width l2).
  { induction l1 as [| [X v] rest IH]; intros l2; cbn [total_width app];
      [reflexivity | rewrite IH; lia]. }
  induction fields as [| [X v] rest IH]; [reflexivity |].
  cbn [rev total_width]. rewrite Happ, IH. cbn [total_width]. lia.
Qed.

Lemma packable_bits_bound (stack : list (Z * Z)) :
  Forall packable stack ->
  0 <= total_width stack /\ 0 <= bits_of stack < 2 ^ total_width stack.
Proof.
  induction 1 as [| [X v] rest [HX Hv] _ [Ht IH]];
    cbn [bits_of total_width fst snd] in *.
  - change (2 ^ 0) with 1. lia.
  - split; [lia |].
    rewrite (Z.add_comm X), Z.pow_add_r by lia.
    assert (0 < 2 ^ X) by (apply Z.pow_pos_nonneg; lia).
    nia.
Qed.

Lemma Push_any_packable (X v : Z) (stack : list (Z * Z)) :
  packable (X, v) ->
  Forall packable stack ->
  total_width stack + X <= 64 ->
  compiles (Push_any X v (object_of stack)) = true ->
  Push_any X v (object_of stack) = Returns (object_of ((X, v) :: stack)).
Proof.
  intros [HX Hv] Hst Hsum Hc. cbn [fst snd] in HX, Hv.
  destruct (packable_bits_bound stack Hst) as [Ht Hb].
  destruct stack as [| f rest].
  - cbn [object_of Push_any] in *.
    unfold Packed_0_void.Push, Create, static_assert in *.
    destruct (X =? 0); [discriminate Hc |].
    cbn. reflexivity.
  - assert (Hs : schema_of (f :: rest) <> Packed0)
      by (destruct f; destruct rest; discriminate).
    assert (Hfit : bits_of (f :: rest) * 2 ^ X < 2 ^ 64).
    { assert (0 < 2 ^ X) by (apply Z.pow_pos_nonneg; lia).
      assert (2 ^ total_width (f :: rest) * 2 ^ X <= 2 ^ 64).
      { rewrite <- Z.pow_add_r by lia. apply Z.pow_le_mono_r; lia. }
      nia. }
    change (object_of (f :: rest))
      with (Object (schema_of (f :: rest))
              {| m_fields := bits_of (f :: rest) |}) in Hc |- *.
    rewrite Push_any_Object by (assumption || lia).
    cbn [m_fields]. rewrite push_bits by lia.
    destruct f as [X1 v1]. reflexivity.
Qed.

Lemma Push_all_packable (fields stack : list (Z * Z)) :
  Forall packable fields ->
  Forall packable stack ->
  total_width fields + total_width stack <= 64 ->
  compiles (Push_all fields (object_of stack)) = true ->
  Push_all fields (object_of stack) = Returns (object_of (rev fields ++ stack)).
Proof.
  revert stack.
  induction fields as [| [X v] rest IH]; intros stack Hf Hst Hsum Hc.
  - reflexivity.
  - apply Forall_cons_iff in Hf. destruct Hf as [Hxv Hrest].
    destruct (packable_bits_bound rest Hrest) as [Ht _].
    cbn [total_width] in Hsum. cbn [Push_all] in Hc |- *.
    pose proof (compiles_bind _ _ Hc) as Hc1.
    rewrite Push_any_packable in Hc |- * by (assumption || lia).
    cbn [bind] in Hc |- *.
    rewrite IH.
    + cbn [rev]. rewrite <- app_assoc. reflexivity.
    + exact Hrest.
    + apply Forall_cons; assumption.
    + cbn [total_width]. lia.
    + exact Hc.
Qed.

(** The word a chain of pushes builds, for fields up to 63 bits wide whose
    values fit their widths and whose widths sum to at most 64: every push
    that compiles returns, the last pushed field lies in the lowest bits with
    each earlier field above the later ones, and the word uses no bit above
    the sum of the widths. Wide fields are packed as well as narrow ones. *)
Theorem pack_layout (fields : list (Z * Z)) :
  Forall packable fields ->
  total_width fields <= 64 ->
  compiles (pack fields) = true ->
  exists c,
    pack fields = Returns c /\
    raw_bits c = bits_of (rev fields) /\
    0 <= raw_bits c < 2 ^ total_width fields.
Proof.
  intros Hf Hsum Hc.
  exists (object_of (rev fields)).
  assert (Hbits : raw_bits (object_of (rev fields)) = bits_of (rev fields))
    by (destruct (rev fields); reflexivity).
  split; [| split].
  - unfold pack in *. change Nothing with (object_of []) in *.
    rewrite Push_all_packable; try assumption.
    + rewrite app_nil_r. reflexivity.
    + constructor.
    + cbn [total_width]. lia.
  - exact Hbits.
  - rewrite Hbits, <- total_width_rev.
    apply packable_bits_bound. apply Forall_rev. exact Hf.
Qed.

(** A 20-bit field, then a 40-bit one: the word is
    [1000000 * 2^40 + 2^39], within 60 bits. *)
Lemma pack_layout_witness :
  exists c,
    pack [(20, 1000000); (40, 549755813888)] = Returns c /\
    raw_bits c = 1000000 * 2 ^ 40 + 549755813888 /\
    0 <= raw_bits c < 2 ^ 60.
Proof.
  apply (pack_layout [(20, 1000000); (40, 549755813888)]).
  - repeat constructor; cbn; lia.
  - cbn. lia.
  - reflexivity.
Defined.

(** ** A wide field makes the decoding undefined *)

(** Reading back all the fields of an object whose class has a field of 32
    bits or more, anywhere in it, has no defined result: the fields above
    the wide one are read, then [Back()] meets the wide one. *)
Theorem unpack_undefined_with_wide_field (s : Schema) :
  Forall (fun w => 0 <= w) (widths s) ->
  Exists (fun w => 32 <= w) (widths s) ->
  forall x : Z,
    unpack (length (widths s)) (Object s {| m_fields := x |}) = Undefined.
Proof.
  induction s as [| W | W REST IH]; intros Hpos Hwide x.
  - inversion Hwide.
  - cbn [widths] in Hwide. apply Exists_cons in Hwide.
    destruct Hwide as [HW | Hnil]; [| inversion Hnil].
    cbn [widths length unpack Back_any].
    rewrite Packed_W_void_Back_wide by exact HW. reflexivity.
  - cbn [widths] in Hpos, Hwide |- *.
    apply Forall_cons_iff in Hpos. destruct Hpos as [HW0 Hpos].
    destruct (Z_lt_le_dec W 32) as [Hlow | Hhigh].
    + apply Exists_cons in Hwide.
      destruct Hwide as [HW | Hrest]; [lia |].
      destruct (widths REST) as [| W' ws] eqn:Hws; [inversion Hrest |].
      assert (HR : REST <> Packed0) by (intros ->; discriminate Hws).
      specialize (IH Hpos Hrest (Z.shiftr x W)).
      cbn [length] in IH |- *. rewrite unpack_more.
      cbn [Back_any]. rewrite Packed_W_REST_Back_low by lia.
      cbn [bind fst m_fields].
      rewrite Pop_any_Object by (assumption || lia).
      cbn [bind m_fields]. rewrite IH. reflexivity.
    + destruct (widths REST) as [| W' ws];
        cbn [length unpack Back_any];
        rewrite Packed_W_REST_Back_wide by exact Hhigh; reflexivity.
Qed.

(** A 40-bit field under a 4-bit one: the 4-bit field is read, the 40-bit
    one is not. *)
Lemma unpack_undefined_with_wide_field_witness :
  unpack 2 (Object (PackedWR 4 (PackedW 40)) {| m_fields := 89 |})
    = Undefined.
Proof.
  apply (unpack_undefined_with_wide_field (PackedWR 4 (PackedW 40))).
  - repeat constructor; lia.
  - apply Exists_cons_tl. apply Exists_cons_hd. lia.
Defined.
